(** * Ephemeral message relay: a shallow embedding of the message store

    Sources: [src/main.py] and [src/ephemeral_message_api.py].  Both files
    define the same process-wide [store] dict and the same [send], [recv]
    and [cleanup_loop] bodies; [main.py]'s [send] returns the link
    ["/recv/<id>/view"], the API file's [send] returns ["/recv/<id>"], and
    only the API file has the [health] route.

    Modelling choices:
    - [store] ([{id: {"data", "expires", "views_left"}}]) is a
      [gmap string entry]; the three fields form the record [entry].
    - The clock [time.time()] is an explicit argument [now : Z] of the
      handlers that read it ([send] and one pass of [cleanup_loop]).
    - [secrets.token_hex(4)] is [token_hex] applied to the four bytes the
      entropy source hands out, passed to [send] as [entropy].
    - Each handler runs atomically on the store; the server is a sequence
      of such events, [run]. *)

From Stdlib Require Import ZArith Ascii String.
From stdpp Require Import base gmap strings list fin_maps.

Open Scope Z_scope.

(** [store] values: [{"data": str, "expires": float, "views_left": int}]. *)
Record entry := mkEntry {
  data : string;
  expires : Z;
  views_left : Z
}.

(** [class MessageIn(BaseModel)]: [ttl: int | None = None],
    [max_views: int | None = 1]. *)
Record MessageIn := mkMessageIn {
  text : string;
  ttl : option Z;
  max_views : option Z
}.

(** [TTL_SECONDS = 60] *)
Definition TTL_SECONDS : Z := 60.

(** Python's [x or d] on an [int | None]: [None] and [0] are falsy. *)
Definition py_or (x : option Z) (d : Z) : Z :=
  match x with
  | Some z => if Z.eqb z 0 then d else z
  | None => d
  end.

(** ** [secrets.token_hex(nbytes)]

    [binascii.hexlify(token_bytes(nbytes)).decode('ascii')]: two lowercase
    hexadecimal digits per byte, high nibble first. *)
Definition hex_digit (n : nat) : ascii :=
  if Nat.ltb n 10 then ascii_of_nat (48 + n) else ascii_of_nat (87 + n).

Definition hex_byte (b : Byte.byte) : string :=
  let n := Byte.to_nat b in
  String (hex_digit (Nat.div n 16)) (String (hex_digit (Nat.modulo n 16)) EmptyString).

Fixpoint token_hex (bs : list Byte.byte) : string :=
  match bs with
  | [] => EmptyString
  | b :: bs' => hex_byte b +:+ token_hex bs'
  end.

(** The characters [hexlify] can produce. *)
Definition is_lower_hex (c : ascii) : bool :=
  let n := nat_of_ascii c in
  (Nat.leb 48 n && Nat.leb n 57) || (Nat.leb 97 n && Nat.leb n 102).

(** ** Handlers *)

(** Response of [send]: [{"id", "expires_in", "link"}]. *)
Record send_response := mkSendResponse {
  resp_id : string;
  expires_in : Z;
  link : string
}.

(** [send] (main.py, lines 36-50):
<<
    msg_id = secrets.token_hex(4)
    ttl = msg.ttl or TTL_SECONDS
    store[msg_id] = {"data": msg.text, "expires": time.time() + ttl,
                     "views_left": msg.max_views or 1}
    return {"id": msg_id, "expires_in": ttl, "link": f"/recv/{msg_id}/view"}
>> *)
Definition send (store : gmap string entry) (now : Z) (entropy : list Byte.byte)
    (msg : MessageIn) : gmap string entry * send_response :=
  let msg_id := token_hex entropy in
  let t := py_or (ttl msg) TTL_SECONDS in
  let store' := <[msg_id := mkEntry (text msg) (now + t) (py_or (max_views msg) 1)]> store in
  (store', mkSendResponse msg_id t ("/recv/" +:+ msg_id +:+ "/view")).

(** [send] above is the handler once [time.time() + ttl] has been computed
    exactly; the server model [step] uses it for the [send] requests that
    store a record.  The full handler [send_py] follows, with its server
    model [run_py]; the two agree whenever ttl and expiry are at most 2^53
    in magnitude ([run_py_exact] below).

    [time.time() + ttl] adds a Python [int] to a [float]: the [int] is first
    converted with round-to-nearest-even to 53 significant bits, and the
    conversion raises [OverflowError] when the rounded magnitude reaches
    2^1024, that is when [|ttl| >= 2^1024 - 2^970]; FastAPI then answers
    HTTP 500 and the assignment [store[msg_id] = ...] never runs.  The sum
    of the two floats is rounded again.  Clock readings are integral here
    and far below 2^53, hence exact floats. *)
Definition fl (z : Z) : Z :=
  let a := Z.abs z in
  if Z.leb a (2 ^ 53) then z
  else
    let e := Z.log2 a - 52 in
    let q := a / 2 ^ e in
    let r := a mod 2 ^ e in
    let h := 2 ^ (e - 1) in
    let q' := if Z.ltb h r then q + 1
              else if Z.eqb r h then (if Z.odd q then q + 1 else q)
              else q in
    Z.sgn z * (q' * 2 ^ e).

Definition int_to_float_overflows (t : Z) : bool :=
  Z.leb (2 ^ 1024 - 2 ^ 970) (Z.abs t).

(** The whole [send] handler: [None] is the [OverflowError] (HTTP 500),
    raised after the id is drawn and before the store is written. *)
Definition send_py (store : gmap string entry) (now : Z) (entropy : list Byte.byte)
    (msg : MessageIn) : gmap string entry * option send_response :=
  let msg_id := token_hex entropy in
  let t := py_or (ttl msg) TTL_SECONDS in
  if int_to_float_overflows t then (store, None)
  else
    let store' := <[msg_id := mkEntry (text msg) (fl (now + fl t)) (py_or (max_views msg) 1)]> store in
    (store', Some (mkSendResponse msg_id t ("/recv/" +:+ msg_id +:+ "/view"))).

(** Outcome of [recv]: [{"text": msg}] or [HTTPException(404)]. *)
Inductive recv_result :=
| NotFound404
| Text (msg : string).

(** [recv] (main.py, lines 53-63):
<<
    entry = store.get(msg_id)
    if not entry:
        raise HTTPException(status_code=404, ...)
    entry["views_left"] -= 1
    msg = entry["data"]
    if entry["views_left"] <= 0:
        del store[msg_id]
    return {"text": msg}
>>
    A stored entry is a non-empty dict, hence truthy: [not entry] holds
    exactly when the id is absent.  [entry] is the dict held by the store,
    so the decrement is a write into the store. *)
Definition recv (store : gmap string entry) (msg_id : string)
    : gmap string entry * recv_result :=
  match store !! msg_id with
  | None => (store, NotFound404)
  | Some e =>
      let e' := mkEntry (data e) (expires e) (views_left e - 1) in
      let store1 := <[msg_id := e']> store in
      if Z.leb (views_left e') 0
      then (delete msg_id store1, Text (data e))
      else (store1, Text (data e))
  end.

(** One pass of [cleanup_loop] (main.py, lines 27-31):
<<
    now = time.time()
    expired = [k for k, v in store.items() if v["expires"] < now or v["views_left"] <= 0]
    for k in expired:
        del store[k]
>> *)
Definition is_expired (now : Z) (v : entry) : bool :=
  Z.ltb (expires v) now || Z.leb (views_left v) 0.

Definition expired_keys (now : Z) (store : gmap string entry) : list string :=
  fst <$> filter (fun kv : string * entry => is_expired now kv.2 = true)
                 (map_to_list store).

Definition cleanup_pass (now : Z) (store : gmap string entry) : gmap string entry :=
  foldl (fun st k => delete k st) store (expired_keys now store).

(** [health] (ephemeral_message_api.py, lines 55-57):
    [return {"status": "ok", "messages": len(store)}]. *)
Definition health (store : gmap string entry) : Z := Z.of_nat (size store).

(** ** The server as a sequence of atomic events *)
Inductive event :=
| EvSend (now : Z) (entropy : list Byte.byte) (msg : MessageIn)
| EvRecv (now : Z) (msg_id : string)
| EvSweep (now : Z)
| EvHealth (now : Z).

Inductive output :=
| OSend (r : send_response)
| ORecv (r : recv_result)
| OSweep
| OHealth (messages : Z)
| OServerError.

(** [recv] and [health] do not read the clock: their [now] is only the
    instant at which the request is served. *)
Definition step (store : gmap string entry) (ev : event) : gmap string entry * output :=
  match ev with
  | EvSend now ent msg => let (st, r) := send store now ent msg in (st, OSend r)
  | EvRecv _ id => let (st, r) := recv store id in (st, ORecv r)
  | EvSweep now => (cleanup_pass now store, OSweep)
  | EvHealth _ => (store, OHealth (health store))
  end.

(** The server with the full [send] handler. *)
Definition step_py (store : gmap string entry) (ev : event) : gmap string entry * output :=
  match ev with
  | EvSend now ent msg =>
      match send_py store now ent msg with
      | (st, Some r) => (st, OSend r)
      | (st, None) => (st, OServerError)
      end
  | _ => step store ev
  end.

Fixpoint run_py (store : gmap string entry) (evs : list event)
    : gmap string entry * list (event * output) :=
  match evs with
  | [] => (store, [])
  | ev :: evs' =>
      let (st1, o) := step_py store ev in
      let (st2, log) := run_py st1 evs' in
      (st2, (ev, o) :: log)
  end.

Fixpoint run (store : gmap string entry) (evs : list event)
    : gmap string entry * list (event * output) :=
  match evs with
  | [] => (store, [])
  | ev :: evs' =>
      let (st1, o) := step store ev in
      let (st2, log) := run st1 evs' in
      (st2, (ev, o) :: log)
  end.

(** The [recv] outcomes for id [X] in a log, in order. *)
Fixpoint recvs_of (X : string) (log : list (event * output)) : list recv_result :=
  match log with
  | [] => []
  | (EvRecv _ id, ORecv r) :: log' =>
      if String.eqb id X then r :: recvs_of X log' else recvs_of X log'
  | _ :: log' => recvs_of X log'
  end.

Definition is_found (r : recv_result) : bool :=
  match r with NotFound404 => false | Text _ => true end.

(** No [send] of the event list draws the id [X]. *)
Definition no_send_of (X : string) (evs : list event) : Prop :=
  Forall (fun ev => match ev with
                    | EvSend _ ent _ => token_hex ent <> X
                    | _ => True
                    end) evs.

(** Records satisfying the LIVE invariant at [now]. *)
Definition live_count (now : Z) (store : gmap string entry) : nat :=
  size (filter (fun kv : string * entry => 0 < views_left kv.2 /\ now < expires kv.2) store).

Definition b0 : list Byte.byte := [Byte.xde; Byte.xad; Byte.xbe; Byte.xef].

Example token_hex_b0 : token_hex b0 = "deadbeef"%string.
Proof. reflexivity. Qed.

(** ** Lemmas on the handlers *)

Lemma foldl_delete_lookup (ks : list string) (s : gmap string entry) (k : string) :
  foldl (fun st k' => delete k' st) s ks !! k = if decide (k ∈ ks) then None else s !! k.
Proof.
  revert s. induction ks as [|k0 ks IH]; intros s; cbn [foldl].
  - destruct (decide (k ∈ [])) as [Hin|]; [set_solver | done].
  - rewrite IH. destruct (decide (k = k0)) as [->|Hne].
    + rewrite lookup_delete_eq. repeat case_decide; set_solver.
    + rewrite lookup_delete_ne by done.
      repeat case_decide; try done; set_solver.
Qed.

Lemma elem_of_expired_keys now (s : gmap string entry) k :
  k ∈ expired_keys now s <-> exists v, s !! k = Some v /\ is_expired now v = true.
Proof.
  unfold expired_keys. rewrite list_elem_of_fmap. split.
  - intros [[k' v] [-> Hin]]. apply list_elem_of_filter in Hin as [Hexp Hin].
    apply elem_of_map_to_list in Hin. eauto.
  - intros [v [Hl He]]. exists (k, v). split; [done|].
    apply list_elem_of_filter. split; [done|]. by apply elem_of_map_to_list.
Qed.

(** One cleanup pass, key by key. *)
Lemma cleanup_pass_lookup now (s : gmap string entry) k :
  cleanup_pass now s !! k =
    match s !! k with
    | Some v => if is_expired now v then None else Some v
    | None => None
    end.
Proof.
  unfold cleanup_pass. rewrite foldl_delete_lookup.
  case_decide as Hin.
  - apply elem_of_expired_keys in Hin as [v [Hl He]]. by rewrite Hl, He.
  - destruct (s !! k) as [v|] eqn:Hl; [|done].
    destruct (is_expired now v) eqn:He; [|done].
    exfalso. apply Hin, elem_of_expired_keys. eauto.
Qed.

Lemma recv_lookup_ne (s : gmap string entry) id X :
  id <> X -> (recv s id).1 !! X = s !! X.
Proof.
  intros Hne. unfold recv. destruct (s !! id) as [e|]; [|done].
  destruct (Z.leb _ 0); simpl.
  - rewrite lookup_delete_ne, lookup_insert_ne; done.
  - rewrite lookup_insert_ne; done.
Qed.

Lemma send_lookup_ne (s : gmap string entry) now ent msg X :
  token_hex ent <> X -> (send s now ent msg).1 !! X = s !! X.
Proof. intros Hne. unfold send. simpl. by rewrite lookup_insert_ne. Qed.

Lemma recv_absent (s : gmap string entry) id :
  s !! id = None -> recv s id = (s, NotFound404).
Proof. intros H. unfold recv. by rewrite H. Qed.

Lemma cleanup_pass_absent now (s : gmap string entry) X :
  s !! X = None -> cleanup_pass now s !! X = None.
Proof. intros H. by rewrite cleanup_pass_lookup, H. Qed.

Lemma run_cons (s : gmap string entry) ev evs :
  run s (ev :: evs) =
    ((run (step s ev).1 evs).1, (ev, (step s ev).2) :: (run (step s ev).1 evs).2).
Proof.
  simpl. destruct (step s ev) as [s1 o]. simpl.
  by destruct (run s1 evs).
Qed.

(** The [recv] outcome for [X] contributed by one logged event. *)
Definition recv_part (X : string) (ev : event) (o : output) : list recv_result :=
  match ev, o with
  | EvRecv _ id, ORecv r => if String.eqb id X then [r] else []
  | _, _ => []
  end.

Lemma recvs_of_cons X ev o log :
  recvs_of X ((ev, o) :: log) = recv_part X ev o ++ recvs_of X log.
Proof. destruct ev, o; simpl; try done. by destruct (String.eqb _ X). Qed.

Definition not_send_of (X : string) (ev : event) : Prop :=
  match ev with EvSend _ ent _ => token_hex ent <> X | _ => True end.

Lemma step_absent (s : gmap string entry) ev X :
  s !! X = None -> not_send_of X ev ->
  (step s ev).1 !! X = None /\
  Forall (fun r => r = NotFound404) (recv_part X ev (step s ev).2).
Proof.
  intros Hx Hev. destruct ev as [now ent msg|now id|now|now]; simpl in *.
  - unfold send. simpl. rewrite lookup_insert_ne by done. done.
  - destruct (String.eqb_spec id X) as [->|Hne].
    + rewrite (recv_absent s X Hx). simpl. auto.
    + pose proof (recv_lookup_ne s id X Hne) as Hl.
      destruct (recv s id) as [s1 r]. simpl in *.
      apply String.eqb_neq in Hne. rewrite Hl. simpl. auto.
  - split; [by apply cleanup_pass_absent | constructor].
  - auto.
Qed.

(** An absent id stays absent while no [send] draws it, and every [recv]
    of it answers 404. *)
Lemma absent_stays X (evs : list event) (s : gmap string entry) :
  s !! X = None -> no_send_of X evs ->
  (run s evs).1 !! X = None /\
  Forall (fun r => r = NotFound404) (recvs_of X (run s evs).2).
Proof.
  revert s. induction evs as [|ev evs IH]; intros s Hx Hns; [done|].
  inversion Hns as [|? ? Hev Hns']; subst.
  rewrite run_cons. cbn [fst snd]. rewrite recvs_of_cons.
  destruct (step_absent s ev X Hx Hev) as [Hx1 Hp].
  destruct (IH _ Hx1 Hns') as [H1 H2].
  split; [done|]. by apply Forall_app.
Qed.

Fixpoint count_found (L : list recv_result) : nat :=
  match L with
  | [] => 0
  | r :: L' => ((if is_found r then 1 else 0) + count_found L')%nat
  end.

(** The record stored under [X] by one [send]: payload [p], expiry [e], and
    [v] views left; or no record at all. *)
Definition slot_inv (X p : string) (e : Z) (v : nat) (s : gmap string entry) : Prop :=
  s !! X = None \/ ((0 < v)%nat /\ s !! X = Some (mkEntry p e (Z.of_nat v))).

(** What a log of [recv] outcomes for [X] may look like when [v] views are
    left: from position [v] on only 404s, at most [v] successes, and
    every success carries [p]. *)
Definition views_shape (p : string) (v : nat) (L : list recv_result) : Prop :=
  (forall i, (v <= i)%nat -> nth_error L i = None \/ nth_error L i = Some NotFound404) /\
  (count_found L <= v)%nat /\
  Forall (fun r => r = NotFound404 \/ r = Text p) L.

Lemma views_shape_all_404 p v L :
  Forall (fun r => r = NotFound404) L -> views_shape p v L.
Proof.
  intros HL. assert (count_found L = 0%nat) as Hc.
  { induction HL as [|r L' Hr HL' IH]; [done|]. subst. simpl. done. }
  split; [|split].
  - intros i _. destruct (nth_error L i) as [r|] eqn:Hn; [|auto].
    right. apply nth_error_In, list_elem_of_In in Hn. rewrite Forall_forall in HL.
    by rewrite (HL r Hn).
  - lia.
  - eapply Forall_impl; [exact HL|]. simpl. auto.
Qed.

Lemma views_shape_cons p v L :
  views_shape p v L -> views_shape p (S v) (Text p :: L).
Proof.
  intros [Hn [Hc Hf]]. split; [|split].
  - intros [|i] Hi; [lia|]. simpl. apply Hn. lia.
  - simpl. lia.
  - constructor; auto.
Qed.

Lemma views_shape_weaken p v L :
  views_shape p v L -> views_shape p (S v) L.
Proof.
  intros [Hn [Hc Hf]]. split; [|split]; [|lia|done].
  intros i Hi. apply Hn. lia.
Qed.

Lemma step_present (s : gmap string entry) ev X p e (v : nat) :
  (0 < v)%nat -> s !! X = Some (mkEntry p e (Z.of_nat v)) -> not_send_of X ev ->
  (recv_part X ev (step s ev).2 = [] /\
     ((step s ev).1 !! X = s !! X \/ (step s ev).1 !! X = None)) \/
  (recv_part X ev (step s ev).2 = [Text p] /\
     ((v = 1%nat /\ (step s ev).1 !! X = None) \/
      ((1 < v)%nat /\ (step s ev).1 !! X = Some (mkEntry p e (Z.of_nat (v - 1)))))).
Proof.
  intros Hv Hx Hev. destruct ev as [now ent msg|now id|now|now]; simpl in *.
  - left. unfold send. simpl. rewrite lookup_insert_ne by done. auto.
  - destruct (String.eqb_spec id X) as [->|Hne].
    + right. unfold recv. rewrite Hx. simpl.
      destruct (Z.leb_spec (Z.of_nat v - 1) 0) as [Hle|Hgt]; simpl;
        (split; [done|]).
      * left. split; [lia|]. by rewrite lookup_delete_eq.
      * right. split; [lia|]. rewrite lookup_insert_eq.
        do 2 f_equal. lia.
    + left. pose proof (recv_lookup_ne s id X Hne) as Hl.
      destruct (recv s id) as [s1 r]. simpl in *.
      apply String.eqb_neq in Hne. auto.
  - left. split; [done|]. rewrite cleanup_pass_lookup, Hx.
    destruct (is_expired now _); auto.
  - left. auto.
Qed.

(** The main invariant of one stored message: while no other [send] draws
    its id, the [recv]s of that id follow [views_shape]. *)
Lemma run_slot X p e (v : nat) (evs : list event) (s : gmap string entry) :
  slot_inv X p e v s -> no_send_of X evs ->
  views_shape p v (recvs_of X (run s evs).2) /\
  exists v', slot_inv X p e v' (run s evs).1.
Proof.
  revert s v. induction evs as [|ev evs IH]; intros s v Hinv Hns.
  - simpl. split; [|eauto]. by apply views_shape_all_404.
  - destruct Hinv as [Hx|[Hv Hx]].
    + destruct (absent_stays X (ev :: evs) s Hx Hns) as [H1 H2].
      split; [by apply views_shape_all_404|]. exists v. by left.
    + inversion Hns as [|? ? Hev Hns']; subst.
      rewrite run_cons. cbn [fst snd]. rewrite recvs_of_cons.
      destruct (step_present s ev X p e v Hv Hx Hev)
        as [[-> [Hs|Hs]] | [-> [[-> Hs]|[Hlt Hs]]]].
      * apply IH; [|done]. right. rewrite Hs. done.
      * destruct (absent_stays X evs _ Hs Hns') as [H1 H2].
        split; [by apply views_shape_all_404|]. exists v. by left.
      * destruct (absent_stays X evs _ Hs Hns') as [H1 H2].
        split; [|exists 1%nat; by left].
        apply views_shape_cons. by apply views_shape_all_404.
      * destruct (IH _ (v - 1)%nat ltac:(right; split; [lia|done]) Hns') as [H1 H2].
        split; [|done].
        replace v with (S (v - 1)) by lia. by apply views_shape_cons.
Qed.

Lemma send_lookup_eq (s : gmap string entry) now ent msg :
  (send s now ent msg).1 !! token_hex ent =
    Some (mkEntry (text msg) (now + py_or (ttl msg) TTL_SECONDS) (py_or (max_views msg) 1)).
Proof. unfold send. simpl. by rewrite lookup_insert_eq. Qed.

Lemma recv_part_send X now ent msg o : recv_part X (EvSend now ent msg) o = [].
Proof. done. Qed.

Lemma py_or_pos (N d : Z) : 1 <= N -> py_or (Some N) d = N.
Proof. intros H. simpl. destruct (Z.eqb_spec N 0); [lia|done]. Qed.

(** Every [recv] of the id drawn by a [send] answers either 404 or the
    text that [send] stored, as long as no later [send] draws that id. *)
Lemma recvs_after_send (s : gmap string entry) t0 ent msg evs :
  (1 <= py_or (max_views msg) 1) -> no_send_of (token_hex ent) evs ->
  views_shape (text msg) (Z.to_nat (py_or (max_views msg) 1))
    (recvs_of (token_hex ent) (run s (EvSend t0 ent msg :: evs)).2).
Proof.
  intros HN Hns. rewrite run_cons. cbn [fst snd]. rewrite recvs_of_cons.
  simpl (recv_part _ _ _). rewrite app_nil_l.
  eapply run_slot; [|exact Hns]. right. split; [lia|].
  replace (step s (EvSend t0 ent msg)).1 with (send s t0 ent msg).1
    by (simpl; by destruct (send s t0 ent msg)).
  rewrite send_lookup_eq. do 2 f_equal. lia.
Qed.

Lemma hex_digit_lower (d : nat) : (d < 16)%nat -> is_lower_hex (hex_digit d) = true.
Proof.
  intros Hd. do 16 (destruct d as [|d]; [reflexivity|]). lia.
Qed.

Fixpoint all_lower_hex (s : string) : bool :=
  match s with
  | EmptyString => true
  | String c s' => is_lower_hex c && all_lower_hex s'
  end.

Lemma hex_byte_ok (b : Byte.byte) :
  String.length (hex_byte b) = 2%nat /\ all_lower_hex (hex_byte b) = true.
Proof.
  split; [done|]. unfold hex_byte. cbn [all_lower_hex].
  pose proof (Byte.to_nat_bounded b) as Hb.
  rewrite !hex_digit_lower; [done| |].
  - apply Nat.mod_upper_bound. lia.
  - apply Nat.Div0.div_lt_upper_bound. lia.
Qed.

Lemma length_string_app (a b : string) :
  String.length (a +:+ b) = (String.length a + String.length b)%nat.
Proof. induction a as [|c a IH]; simpl; [done|]. by rewrite IH. Qed.

Lemma all_lower_hex_app (a b : string) :
  all_lower_hex (a +:+ b) = all_lower_hex a && all_lower_hex b.
Proof.
  induction a as [|c a IH]; simpl; [done|]. rewrite IH. by rewrite andb_assoc.
Qed.

Lemma token_hex_ok (bs : list Byte.byte) :
  String.length (token_hex bs) = (2 * length bs)%nat /\ all_lower_hex (token_hex bs) = true.
Proof.
  induction bs as [|b bs [IHl IHh]]; cbn [token_hex length]; [done|].
  destruct (hex_byte_ok b) as [Hl Hh].
  rewrite length_string_app, all_lower_hex_app, Hl, Hh, IHl, IHh. split; [lia|done].
Qed.

(** ** Claims *)

(** C2 (at most N views).  A message sent with [max_views = N >= 1]: among
    the [recv]s of its id that follow (no other [send] drawing the same id
    in between), at most N return the text, and the (N+1)-th and every
    later one answers 404. *)
Theorem at_most_N_views (s : gmap string entry) t0 ent msg (N : Z) (evs : list event) :
  max_views msg = Some N -> 1 <= N -> no_send_of (token_hex ent) evs ->
  let L := recvs_of (token_hex ent) (run s (EvSend t0 ent msg :: evs)).2 in
  Z.of_nat (count_found L) <= N /\
  (forall i : nat, N <= Z.of_nat i ->
     nth_error L i = None \/ nth_error L i = Some NotFound404).
Proof.
  intros Hm HN Hns L.
  assert (py_or (max_views msg) 1 = N) as HpN by (rewrite Hm; by apply py_or_pos).
  pose proof (recvs_after_send s t0 ent msg evs ltac:(lia) Hns) as [Hn [Hc _]].
  rewrite HpN in Hn, Hc. fold L in Hn, Hc. split.
  - lia.
  - intros i Hi. apply Hn. lia.
Qed.

Lemma at_most_N_views_witness :
  (max_views (mkMessageIn "hello" (Some 60) (Some 2)) = Some 2 /\ 1 <= 2 /\
   no_send_of (token_hex b0) [EvRecv 0 "deadbeef"; EvRecv 1 "deadbeef"; EvRecv 2 "deadbeef"]) /\
  let L := recvs_of (token_hex b0)
             (run ∅ (EvSend 0 b0 (mkMessageIn "hello" (Some 60) (Some 2)) ::
                     [EvRecv 0 "deadbeef"; EvRecv 1 "deadbeef"; EvRecv 2 "deadbeef"])).2 in
  Z.of_nat (count_found L) <= 2 /\
  (forall i : nat, 2 <= Z.of_nat i -> nth_error L i = None \/ nth_error L i = Some NotFound404).
Proof.
  split; [split; [reflexivity | split; [lia | repeat constructor]]|].
  apply (at_most_N_views ∅ 0 b0 (mkMessageIn "hello" (Some 60) (Some 2)) 2);
    [reflexivity | lia | repeat constructor].
Defined.

(** C8 (repeated [recv] of a gone id).  If the id is absent from the
    store, every [recv] of it answers 404 and leaves the store as it is,
    however many times it is repeated. *)
Theorem recv_gone_idempotent (s : gmap string entry) (id : string) (ts : list Z) :
  s !! id = None ->
  run s (map (fun t => EvRecv t id) ts) =
    (s, map (fun t => (EvRecv t id, ORecv NotFound404)) ts).
Proof.
  intros Hx. induction ts as [|t ts IH]; [done|].
  simpl. rewrite (recv_absent s id Hx). simpl. by rewrite IH.
Qed.

Lemma recv_gone_idempotent_witness :
  (∅ : gmap string entry) !! "deadbeef" = None /\
  run ∅ (map (fun t => EvRecv t "deadbeef") [0; 5; 5]) =
    (∅, map (fun t => (EvRecv t "deadbeef", ORecv NotFound404)) [0; 5; 5]).
Proof.
  split; [reflexivity|]. apply recv_gone_idempotent. reflexivity.
Defined.

(** The fields of the record stored under [X] that no handler rewrites. *)
Definition slot_fields (X p : string) (e : Z) (s : gmap string entry) : Prop :=
  forall r, s !! X = Some r -> data r = p /\ expires r = e.

Lemma step_fields (s : gmap string entry) ev X p e :
  slot_fields X p e s -> not_send_of X ev ->
  slot_fields X p e (step s ev).1 /\
  Forall (fun r => r = NotFound404 \/ r = Text p) (recv_part X ev (step s ev).2).
Proof.
  intros Hf Hev. destruct ev as [now ent msg|now id|now|now]; simpl in *.
  - split; [|constructor]. intros r. unfold send. simpl.
    rewrite lookup_insert_ne by done. apply Hf.
  - destruct (String.eqb_spec id X) as [->|Hne].
    + unfold recv. destruct (s !! X) as [e0|] eqn:Hx; simpl.
      * destruct (Hf e0 Hx) as [Hp He].
        destruct (Z.leb _ 0); simpl; split.
        -- intros r. by rewrite lookup_delete_eq.
        -- rewrite Hp. constructor; [by right | constructor].
        -- intros r. rewrite lookup_insert_eq. intros [= <-]. done.
        -- rewrite Hp. constructor; [by right | constructor].
      * try rewrite String.eqb_refl. split; [done|]. constructor; auto.
    + pose proof (recv_lookup_ne s id X Hne) as Hl.
      destruct (recv s id) as [s1 r]. simpl in *. split; [|auto].
      intros r'. rewrite Hl. apply Hf.
  - split; [|constructor]. intros r. rewrite cleanup_pass_lookup.
    destruct (s !! X) as [v|] eqn:Hx; [|done].
    destruct (is_expired now v); [done|]. intros [= <-]. by apply Hf.
  - auto.
Qed.

Lemma run_fields X p e (evs : list event) (s : gmap string entry) :
  slot_fields X p e s -> no_send_of X evs ->
  slot_fields X p e (run s evs).1 /\
  Forall (fun r => r = NotFound404 \/ r = Text p) (recvs_of X (run s evs).2).
Proof.
  revert s. induction evs as [|ev evs IH]; intros s Hf Hns; [done|].
  inversion Hns as [|? ? Hev Hns']; subst.
  rewrite run_cons. cbn [fst snd]. rewrite recvs_of_cons.
  destruct (step_fields s ev X p e Hf Hev) as [Hf1 Hp].
  destruct (IH _ Hf1 Hns') as [H1 H2].
  split; [done|]. by apply Forall_app.
Qed.

Lemma slot_fields_after_send (s : gmap string entry) t0 ent msg :
  slot_fields (token_hex ent) (text msg) (t0 + py_or (ttl msg) TTL_SECONDS)
    (step s (EvSend t0 ent msg)).1.
Proof.
  intros r. replace (step s (EvSend t0 ent msg)).1 with (send s t0 ent msg).1
    by (simpl; by destruct (send s t0 ent msg)).
  rewrite send_lookup_eq. intros [= <-]. done.
Qed.

Definition hello_msg : MessageIn := mkMessageIn "hello" (Some 60) (Some 2).

Lemma hello_scenario (s : gmap string entry) (ent : list Byte.byte) :
  let X := token_hex ent in
  recvs_of X (run s [EvSend 0 ent hello_msg; EvRecv 0 X; EvRecv 30 X; EvRecv 31 X]).2 =
    [Text "hello"; Text "hello"; NotFound404].
Proof.
  intros X. unfold run, step, send, recv. simpl.
  rewrite !lookup_insert_eq. simpl.
  rewrite !lookup_insert_eq. simpl.
  rewrite lookup_delete_eq. simpl.
  rewrite String.eqb_refl. reflexivity.
Qed.

(** C9 (payload fidelity).  [send "hello"] with [ttl = 60], [max_views = 2]
    at t = 0 returns id X; [recv X] at t = 0 and t = 30 return "hello", at
    t = 31 it answers 404.  In general, while no other [send] draws X,
    every [recv X] that succeeds returns exactly the text [send] stored. *)
Theorem payload_fidelity (s : gmap string entry) (ent : list Byte.byte) t0 msg
    (evs : list event) :
  no_send_of (token_hex ent) evs ->
  recvs_of (token_hex ent)
    (run s [EvSend 0 ent hello_msg; EvRecv 0 (token_hex ent);
            EvRecv 30 (token_hex ent); EvRecv 31 (token_hex ent)]).2 =
    [Text "hello"; Text "hello"; NotFound404] /\
  Forall (fun r => r = NotFound404 \/ r = Text (text msg))
    (recvs_of (token_hex ent) (run s (EvSend t0 ent msg :: evs)).2).
Proof.
  intros Hns. split; [apply hello_scenario|].
  rewrite run_cons. cbn [fst snd]. rewrite recvs_of_cons.
  simpl (recv_part _ _ _). rewrite app_nil_l.
  eapply run_fields; [apply slot_fields_after_send | exact Hns].
Qed.

Lemma payload_fidelity_witness :
  no_send_of (token_hex b0) [EvSweep 10; EvRecv 12 "deadbeef"] /\
  recvs_of (token_hex b0)
    (run ∅ [EvSend 0 b0 hello_msg; EvRecv 0 (token_hex b0);
            EvRecv 30 (token_hex b0); EvRecv 31 (token_hex b0)]).2 =
    [Text "hello"; Text "hello"; NotFound404] /\
  Forall (fun r => r = NotFound404 \/ r = Text (text hello_msg))
    (recvs_of (token_hex b0)
       (run ∅ (EvSend 5 b0 hello_msg :: [EvSweep 10; EvRecv 12 "deadbeef"])).2).
Proof.
  split; [repeat constructor|].
  apply payload_fidelity. repeat constructor.
Defined.

(** C10 (identifier format).  The id returned by [send] is
    [token_hex] of the four entropy bytes: eight lowercase hexadecimal
    characters, the same whatever the store, clock and message are. *)
Theorem send_id_format (s : gmap string entry) now (ent : list Byte.byte) msg :
  length ent = 4%nat ->
  let id := resp_id (send s now ent msg).2 in
  String.length id = 8%nat /\ all_lower_hex id = true /\
  forall (s' : gmap string entry) now' msg', resp_id (send s' now' ent msg').2 = id.
Proof.
  intros Hlen id. subst id. simpl.
  destruct (token_hex_ok ent) as [Hl Hh]. rewrite Hl, Hlen. auto.
Qed.

Lemma send_id_format_witness :
  length b0 = 4%nat /\
  let id := resp_id (send ∅ 0 b0 hello_msg).2 in
  String.length id = 8%nat /\ all_lower_hex id = true /\
  forall (s' : gmap string entry) now' msg', resp_id (send s' now' b0 msg').2 = id.
Proof.
  split; [reflexivity|]. apply send_id_format. reflexivity.
Defined.

(** C1, counterexample.  [recv] does not look at the expiry: a message sent
    at t = 0 with [ttl = 60] is still returned by a [recv] at t = 60 when no
    cleanup pass has run in between. *)
Lemma recv_after_ttl_still_found :
  recvs_of "deadbeef" (run ∅ [EvSend 0 b0 hello_msg; EvRecv 60 "deadbeef"]).2 =
    [Text "hello"] /\
  0 + py_or (ttl hello_msg) TTL_SECONDS <= 60.
Proof. split; [reflexivity | simpl; lia]. Qed.

(** C1, as the code does it.  [recv] never reads the clock; the TTL is
    enforced by the cleanup pass: once a pass has run at a time strictly
    after the expiry [t0 + ttl] of a message, every later [recv] of its id
    answers 404, as long as no other [send] draws the same id. *)
Theorem ttl_enforced_by_cleanup (s : gmap string entry) t0 ent msg
    (evs1 : list event) (st : Z) (evs2 : list event) :
  no_send_of (token_hex ent) (evs1 ++ evs2) ->
  t0 + py_or (ttl msg) TTL_SECONDS < st ->
  Forall (fun r => r = NotFound404)
    (recvs_of (token_hex ent)
       (run (run s (EvSend t0 ent msg :: evs1 ++ [EvSweep st])).1 evs2).2) /\
  forall (s' : gmap string entry) n1 n2,
    step s' (EvRecv n1 (token_hex ent)) = step s' (EvRecv n2 (token_hex ent)).
Proof.
  intros Hns Hlt. split; [|done].
  apply Forall_app in Hns as [Hns1 Hns2].
  apply absent_stays; [|exact Hns2].
  assert (forall evs, (run s (EvSend t0 ent msg :: evs)).1 =
            (run (step s (EvSend t0 ent msg)).1 evs).1) as Hr
    by (intros; by rewrite run_cons).
  rewrite Hr. clear Hr.
  assert (forall (s1 : gmap string entry) evs, (run s1 (evs ++ [EvSweep st])).1 =
            cleanup_pass st (run s1 evs).1) as Hr.
  { intros s1 evs. revert s1. induction evs as [|ev evs IH]; intros s1; [done|].
    simpl (_ ++ _). rewrite !run_cons. cbn [fst]. apply IH. }
  rewrite Hr. rewrite cleanup_pass_lookup.
  destruct (run_fields _ _ _ evs1 _ (slot_fields_after_send s t0 ent msg) Hns1) as [Hf _].
  destruct (_ !! token_hex ent) as [r|] eqn:Hx; [|done].
  destruct (Hf r Hx) as [_ He]. unfold is_expired. rewrite He.
  destruct (Z.ltb_spec (t0 + py_or (ttl msg) TTL_SECONDS) st); [done|lia].
Qed.

Lemma ttl_enforced_by_cleanup_witness :
  (no_send_of (token_hex b0) ([EvRecv 1 "deadbeef"] ++ [EvRecv 70 "deadbeef"]) /\
   0 + py_or (ttl hello_msg) TTL_SECONDS < 65) /\
  Forall (fun r => r = NotFound404)
    (recvs_of (token_hex b0)
       (run (run ∅ (EvSend 0 b0 hello_msg :: [EvRecv 1 "deadbeef"] ++ [EvSweep 65])).1
            [EvRecv 70 "deadbeef"]).2) /\
  forall (s' : gmap string entry) n1 n2,
    step s' (EvRecv n1 (token_hex b0)) = step s' (EvRecv n2 (token_hex b0)).
Proof.
  split; [split; [repeat constructor | simpl; lia]|].
  apply ttl_enforced_by_cleanup; [repeat constructor | simpl; lia].
Defined.

Lemma py_or_default (x : option Z) (d : Z) : (x = None \/ x = Some 0) -> py_or x d = d.
Proof. by intros [-> | ->]. Qed.

Lemma py_or_keep (x : option Z) (t d : Z) : x = Some t -> t <> 0 -> py_or x d = t.
Proof. intros -> Ht. simpl. by destruct (Z.eqb_spec t 0). Qed.

(** Integers up to 2^53 are exact floats. *)
Lemma fl_exact (z : Z) : Z.abs z <= 2 ^ 53 -> fl z = z.
Proof.
  intros H. unfold fl. cbv zeta.
  destruct (Z.leb_spec (Z.abs z) (2 ^ 53)); [done | lia].
Qed.

Lemma small_no_overflow (t : Z) : Z.abs t <= 2 ^ 53 -> int_to_float_overflows t = false.
Proof.
  intros H. unfold int_to_float_overflows. apply Z.leb_gt.
  assert (2 ^ 53 < 2 ^ 1024 - 2 ^ 970) by (vm_compute; reflexivity). lia.
Qed.

(** The two outcomes of [send_py]. *)
Lemma send_py_overflow (s : gmap string entry) now ent msg :
  int_to_float_overflows (py_or (ttl msg) TTL_SECONDS) = true ->
  send_py s now ent msg = (s, None).
Proof. intros Ho. unfold send_py. cbv zeta. by rewrite Ho. Qed.

Lemma send_py_ok (s : gmap string entry) now ent msg :
  int_to_float_overflows (py_or (ttl msg) TTL_SECONDS) = false ->
  send_py s now ent msg =
    (<[token_hex ent := mkEntry (text msg) (fl (now + fl (py_or (ttl msg) TTL_SECONDS)))
                                (py_or (max_views msg) 1)]> s,
     Some (mkSendResponse (token_hex ent) (py_or (ttl msg) TTL_SECONDS)
             ("/recv/" +:+ token_hex ent +:+ "/view"))).
Proof. intros Ho. unfold send_py. cbv zeta. by rewrite Ho. Qed.

(** C3, counterexample.  [send] with [ttl = 0] is not rejected: it answers
    normally (with [expires_in = 60]) and the store grows by one record. *)
Lemma send_ttl_zero_accepted :
  let msg := mkMessageIn "x" (Some 0) (Some 1) in
  health (step_py ∅ (EvSend 0 b0 msg)).1 = 1 /\ health ∅ = 0 /\
  (step_py ∅ (EvSend 0 b0 msg)).2 =
    OSend (mkSendResponse "deadbeef" 60 "/recv/deadbeef/view").
Proof. split; [|split]; vm_compute; reflexivity. Qed.

(** C3, as the code does it.  [send] has no validation: a missing or zero
    [ttl] becomes [TTL_SECONDS] = 60 and any other value (negative
    included) is kept; a missing or zero [max_views] becomes 1 and any
    other value is kept.  Its only failure is the [OverflowError] of
    [time.time() + ttl] when [|ttl| >= 2^1024 - 2^970]: the request fails
    and the store is left as it was.  Otherwise a record is stored under the
    drawn id, with [expires] the float sum of the clock and [ttl], every
    other id untouched; for [ttl] and [now + ttl] of magnitude at most 2^53
    that sum is exact. *)
Theorem send_never_rejects (s : gmap string entry) now ent msg :
  let t := py_or (ttl msg) TTL_SECONDS in
  ((ttl msg = None \/ ttl msg = Some 0) -> t = 60) /\
  (forall t', ttl msg = Some t' -> t' <> 0 -> t = t') /\
  ((max_views msg = None \/ max_views msg = Some 0) -> py_or (max_views msg) 1 = 1) /\
  (forall m, max_views msg = Some m -> m <> 0 -> py_or (max_views msg) 1 = m) /\
  (int_to_float_overflows t = true -> send_py s now ent msg = (s, None)) /\
  (int_to_float_overflows t = false ->
     (send_py s now ent msg).2 =
       Some (mkSendResponse (token_hex ent) t ("/recv/" +:+ token_hex ent +:+ "/view")) /\
     (send_py s now ent msg).1 !! token_hex ent =
       Some (mkEntry (text msg) (fl (now + fl t)) (py_or (max_views msg) 1)) /\
     (forall k, k <> token_hex ent -> (send_py s now ent msg).1 !! k = s !! k)) /\
  (Z.abs t <= 2 ^ 53 -> Z.abs (now + t) <= 2 ^ 53 ->
     int_to_float_overflows t = false /\ fl (now + fl t) = now + t).
Proof.
  intros t. unfold t. clear t.
  split; [intros; by apply py_or_default|].
  split; [intros; by eapply py_or_keep|].
  split; [intros; by apply py_or_default|].
  split; [intros; by eapply py_or_keep|].
  split; [apply send_py_overflow|].
  split.
  - intros Ho. rewrite send_py_ok by done. cbn [fst snd].
    split; [done|]. split; [by rewrite lookup_insert_eq|].
    intros k Hk. by rewrite lookup_insert_ne.
  - intros Ht Hs. split; [by apply small_no_overflow|].
    rewrite (fl_exact (py_or (ttl msg) TTL_SECONDS)) by done. by apply fl_exact.
Qed.

Lemma send_never_rejects_witness :
  let t := py_or (Some 0) TTL_SECONDS in
  ((Some 0 = None \/ Some 0 = Some 0) -> t = 60) /\
  (forall t', Some 0 = Some t' -> t' <> 0 -> t = t') /\
  ((Some 0 = None \/ Some 0 = Some 0) -> py_or (Some 0) 1 = 1) /\
  (forall m, Some 0 = Some m -> m <> 0 -> py_or (Some 0) 1 = m) /\
  (int_to_float_overflows t = true ->
     send_py ∅ 0 b0 (mkMessageIn "x" (Some 0) (Some 0)) = (∅, None)) /\
  (int_to_float_overflows t = false ->
     (send_py ∅ 0 b0 (mkMessageIn "x" (Some 0) (Some 0))).2 =
       Some (mkSendResponse (token_hex b0) t ("/recv/" +:+ token_hex b0 +:+ "/view")) /\
     (send_py ∅ 0 b0 (mkMessageIn "x" (Some 0) (Some 0))).1 !! token_hex b0 =
       Some (mkEntry "x" (fl (0 + fl t)) (py_or (Some 0) 1)) /\
     (forall k, k <> token_hex b0 ->
        (send_py ∅ 0 b0 (mkMessageIn "x" (Some 0) (Some 0))).1 !! k =
        (∅ : gmap string entry) !! k)) /\
  (Z.abs t <= 2 ^ 53 -> Z.abs (0 + t) <= 2 ^ 53 ->
     int_to_float_overflows t = false /\ fl (0 + fl t) = 0 + t).
Proof. exact (send_never_rejects ∅ 0 b0 (mkMessageIn "x" (Some 0) (Some 0))). Defined.

(** C4, counterexample.  When the drawn id already holds a record, [send]
    does not retry and does not fail: the old record is overwritten. *)
Lemma send_collision_overwrites :
  let s0 : gmap string entry := {["deadbeef" := mkEntry "old" 100 3]} in
  (step_py s0 (EvSend 5 b0 (mkMessageIn "new" (Some 60) (Some 1)))).1 !! "deadbeef" =
    Some (mkEntry "new" 65 1) /\
  (step_py s0 (EvSend 5 b0 (mkMessageIn "new" (Some 60) (Some 1)))).2 =
    OSend (mkSendResponse "deadbeef" 60 "/recv/deadbeef/view").
Proof. split; vm_compute; reflexivity. Qed.

(** C4, as the code does it.  [send] draws one id and does not check it.
    When [ttl] converts to a float, a record already under that id is
    replaced by the new one, the number of records stays the same, other
    ids are untouched, and [send] answers normally with that id (no retry,
    no [CapacityError]).  When [ttl] is too large for a float, [send]
    fails with [OverflowError] before writing, and the old record stays. *)
Theorem send_overwrites_on_collision (s : gmap string entry) now ent msg (old : entry) :
  s !! token_hex ent = Some old ->
  let t := py_or (ttl msg) TTL_SECONDS in
  (int_to_float_overflows t = false ->
     (send_py s now ent msg).1 !! token_hex ent =
       Some (mkEntry (text msg) (fl (now + fl t)) (py_or (max_views msg) 1)) /\
     size (send_py s now ent msg).1 = size s /\
     (forall k, k <> token_hex ent -> (send_py s now ent msg).1 !! k = s !! k) /\
     option_map resp_id (send_py s now ent msg).2 = Some (token_hex ent)) /\
  (int_to_float_overflows t = true ->
     (send_py s now ent msg).1 !! token_hex ent = Some old /\
     (send_py s now ent msg).1 = s /\ (send_py s now ent msg).2 = None).
Proof.
  intros Hold t. unfold t. clear t. split.
  - intros Ho. rewrite send_py_ok by done. cbn [fst snd option_map resp_id].
    split; [by rewrite lookup_insert_eq|].
    split; [by rewrite map_size_insert, Hold|].
    split; [intros k Hk; by rewrite lookup_insert_ne|done].
  - intros Ho. rewrite send_py_overflow by done. done.
Qed.

Lemma send_overwrites_on_collision_witness :
  let s0 : gmap string entry := {["deadbeef" := mkEntry "old" 100 3]} in
  let msg := mkMessageIn "new" (Some 60) (Some 1) in
  s0 !! token_hex b0 = Some (mkEntry "old" 100 3) /\
  let t := py_or (ttl msg) TTL_SECONDS in
  (int_to_float_overflows t = false ->
     (send_py s0 5 b0 msg).1 !! token_hex b0 =
       Some (mkEntry (text msg) (fl (5 + fl t)) (py_or (max_views msg) 1)) /\
     size (send_py s0 5 b0 msg).1 = size s0 /\
     (forall k, k <> token_hex b0 -> (send_py s0 5 b0 msg).1 !! k = s0 !! k) /\
     option_map resp_id (send_py s0 5 b0 msg).2 = Some (token_hex b0)) /\
  (int_to_float_overflows t = true ->
     (send_py s0 5 b0 msg).1 !! token_hex b0 = Some (mkEntry "old" 100 3) /\
     (send_py s0 5 b0 msg).1 = s0 /\ (send_py s0 5 b0 msg).2 = None).
Proof.
  intros s0 msg. split; [reflexivity|].
  apply (send_overwrites_on_collision s0 5 b0 msg (mkEntry "old" 100 3)). reflexivity.
Defined.

(** C5, counterexample.  The cleanup pass compares [expires < now]
    strictly and also drops records with [views_left <= 0]: at [now = 10]
    it keeps a record expiring at 10 and removes one expiring at 100 whose
    [views_left] is -1 (as stored by a [send] with [max_views = -1]). *)
Lemma cleanup_pass_boundary :
  let s0 : gmap string entry :=
    <["a" := mkEntry "x" 10 1]> {["b" := mkEntry "y" 100 (-1)]} in
  cleanup_pass 10 s0 !! "a" = Some (mkEntry "x" 10 1) /\
  cleanup_pass 10 s0 !! "b" = None /\
  (send ∅ 0 b0 (mkMessageIn "y" (Some 100) (Some (-1)))).1 !! "deadbeef" =
    Some (mkEntry "y" 100 (-1)).
Proof. split; [|split]; reflexivity. Qed.

(** C5, as the code does it.  One cleanup pass at [now] removes exactly the
    records with [expires < now] or [views_left <= 0] and keeps every other
    record unchanged; a second pass at the same [now] changes nothing. *)
Theorem cleanup_pass_exact_idempotent (now : Z) (s : gmap string entry) :
  (forall k, cleanup_pass now s !! k =
     match s !! k with
     | Some v => if is_expired now v then None else Some v
     | None => None
     end) /\
  cleanup_pass now (cleanup_pass now s) = cleanup_pass now s.
Proof.
  split; [apply cleanup_pass_lookup|].
  apply map_eq. intros k. rewrite !cleanup_pass_lookup.
  destruct (s !! k) as [v|]; [|done].
  destruct (is_expired now v) eqn:He; [done|]. by rewrite He.
Qed.

(** C6, counterexample.  [health] reports [len(store)]: a message sent at
    t = 0 with [ttl = 60] is still counted at t = 100 when no cleanup pass
    has run, although no record is live then. *)
Lemma health_counts_expired :
  (run ∅ [EvSend 0 b0 hello_msg; EvHealth 100]).2 !! 1%nat =
    Some (EvHealth 100, OHealth 1) /\
  live_count 100 (run ∅ [EvSend 0 b0 hello_msg; EvHealth 100]).1 = 0%nat.
Proof. split; reflexivity. Qed.

(** C6, as the code does it.  [health] reports the number of records in the
    store, expired ones not yet removed included; this bounds the number of
    live records from above and equals it when every stored record is live. *)
Theorem health_is_store_size (now : Z) (s : gmap string entry) :
  step s (EvHealth now) = (s, OHealth (Z.of_nat (size s))) /\
  (live_count now s <= size s)%nat /\
  (map_Forall (fun _ r => 0 < views_left r /\ now < expires r) s ->
   live_count now s = size s).
Proof.
  split; [done|]. unfold live_count. split.
  - apply map_subseteq_size, map_filter_subseteq.
  - intros Hall. f_equal. apply map_filter_id. intros k r Hk.
    by apply (map_Forall_lookup_1 _ _ _ _ Hall Hk).
Qed.

(** Events a well-configured client sends: positive [ttl] and [max_views]. *)
Definition valid_event (ev : event) : Prop :=
  match ev with
  | EvSend _ _ msg => 0 < py_or (ttl msg) TTL_SECONDS /\ 1 <= py_or (max_views msg) 1
  | _ => True
  end.

Definition views_positive (s : gmap string entry) : Prop :=
  map_Forall (fun _ r => 0 < views_left r) s.

Lemma step_views_positive (s : gmap string entry) ev :
  views_positive s -> valid_event ev -> views_positive (step s ev).1.
Proof.
  intros Hs Hev. destruct ev as [now ent msg|now id|now|now]; simpl in *.
  - unfold send. simpl. apply map_Forall_insert_2; [simpl; lia|done].
  - unfold recv. destruct (s !! id) as [e|] eqn:Hl; [|done].
    destruct (Z.leb _ 0) eqn:Hb; simpl in *;
      [apply Z.leb_le in Hb | apply Z.leb_gt in Hb].
    + rewrite delete_insert_eq. by apply map_Forall_delete.
    + apply map_Forall_insert_2; [simpl; lia|done].
  - intros k r. rewrite cleanup_pass_lookup.
    destruct (s !! k) as [v|] eqn:Hl; [|done].
    destruct (is_expired now v); [done|]. intros [= <-]. exact (Hs k v Hl).
  - done.
Qed.

Lemma cleanup_pass_not_expired (now : Z) (s : gmap string entry) :
  map_Forall (fun _ r => now <= expires r /\ 0 < views_left r) (cleanup_pass now s).
Proof.
  intros k r. rewrite cleanup_pass_lookup.
  destruct (s !! k) as [v|]; [|done].
  unfold is_expired. destruct (Z.ltb_spec (expires v) now); [done|].
  destruct (Z.leb_spec (views_left v) 0); [done|]. intros [= <-]. lia.
Qed.

Lemma run_py_cons (s : gmap string entry) ev evs :
  run_py s (ev :: evs) =
    ((run_py (step_py s ev).1 evs).1, (ev, (step_py s ev).2) :: (run_py (step_py s ev).1 evs).2).
Proof.
  simpl. destruct (step_py s ev) as [s1 o]. simpl.
  by destruct (run_py s1 evs).
Qed.

(** [step_py] on an [EvSend] event, by the two outcomes of [send_py]. *)
Lemma step_py_send (s : gmap string entry) now ent msg :
  (step_py s (EvSend now ent msg)).1 = (send_py s now ent msg).1.
Proof. unfold step_py. by destruct (send_py s now ent msg) as [st [r|]]. Qed.

Lemma step_py_views_positive (s : gmap string entry) ev :
  views_positive s -> valid_event ev -> views_positive (step_py s ev).1.
Proof.
  intros Hs Hev. destruct ev as [now ent msg|now id|now|now];
    [|exact (step_views_positive s _ Hs Hev)..].
  rewrite step_py_send. simpl in Hev.
  destruct (int_to_float_overflows (py_or (ttl msg) TTL_SECONDS)) eqn:Ho.
  - by rewrite send_py_overflow.
  - rewrite send_py_ok by done. apply map_Forall_insert_2; [simpl; lia|done].
Qed.

(** The events that leave the record [r] under [X] in place: a [send]
    drawing another id, a [recv] of another id, a cleanup pass at a time
    not after [expires r], a [health] request. *)
Definition keeps_record (X : string) (r : entry) (ev : event) : Prop :=
  match ev with
  | EvSend _ ent _ => token_hex ent <> X
  | EvRecv _ id => id <> X
  | EvSweep st => st <= expires r
  | EvHealth _ => True
  end.

Lemma step_py_keeps (s : gmap string entry) ev X r :
  s !! X = Some r -> 0 < views_left r -> keeps_record X r ev ->
  (step_py s ev).1 !! X = Some r.
Proof.
  intros Hl Hv Hk. destruct ev as [now ent msg|now id|now|now]; simpl in Hk.
  - rewrite step_py_send.
    destruct (int_to_float_overflows (py_or (ttl msg) TTL_SECONDS)) eqn:Ho.
    + by rewrite send_py_overflow.
    + rewrite send_py_ok by done. simpl. by rewrite lookup_insert_ne.
  - simpl. destruct (recv s id) as [st o] eqn:Hr. simpl.
    rewrite <- Hl. change st with (st, o).1. rewrite <- Hr. by apply recv_lookup_ne.
  - simpl. rewrite cleanup_pass_lookup, Hl. unfold is_expired.
    destruct (Z.ltb_spec (expires r) now); [lia|].
    destruct (Z.leb_spec (views_left r) 0); [lia|done].
  - done.
Qed.

Lemma run_py_keeps (s : gmap string entry) evs X r :
  s !! X = Some r -> 0 < views_left r -> Forall (keeps_record X r) evs ->
  (run_py s evs).1 !! X = Some r.
Proof.
  intros Hl Hv Hk. revert s Hl. induction Hk as [|ev evs Hev Hk IH]; intros s Hl; [done|].
  rewrite run_py_cons. cbn [fst]. apply IH. by apply step_py_keeps.
Qed.

Lemma recv_py_found (s : gmap string entry) n X r :
  s !! X = Some r -> (step_py s (EvRecv n X)).2 = ORecv (Text (data r)).
Proof.
  intros Hl. unfold step_py, step, recv. rewrite Hl. by destruct (Z.leb _ 0).
Qed.

(** For clock readings and ttls up to 2^53 in magnitude (a ttl of that
    size is 285 million years), [time.time() + ttl] is exact and the full
    handler is [send]: [run] is [run_py] on such request sequences. *)
Definition exact_send (ev : event) : Prop :=
  match ev with
  | EvSend now _ msg =>
      Z.abs (py_or (ttl msg) TTL_SECONDS) <= 2 ^ 53 /\
      Z.abs (now + py_or (ttl msg) TTL_SECONDS) <= 2 ^ 53
  | _ => True
  end.

Lemma send_py_exact (s : gmap string entry) now ent msg :
  exact_send (EvSend now ent msg) ->
  send_py s now ent msg = ((send s now ent msg).1, Some (send s now ent msg).2).
Proof.
  intros [Ht Hs]. rewrite send_py_ok by (apply small_no_overflow; exact Ht).
  rewrite (fl_exact (py_or (ttl msg) TTL_SECONDS)), fl_exact by done. done.
Qed.

Lemma run_py_exact (s : gmap string entry) evs :
  Forall exact_send evs -> run_py s evs = run s evs.
Proof.
  intros Hevs. revert s. induction Hevs as [|ev evs Hev Hevs IH]; intros s; [done|].
  rewrite run_py_cons, run_cons, IH.
  assert (step_py s ev = step s ev) as ->; [|done].
  destruct ev as [now ent msg|now id|now|now]; try done.
  unfold step_py. rewrite send_py_exact by done. simpl.
  by destruct (send s now ent msg).
Qed.

(** C7, counterexample.  An expired record is not removed until a cleanup
    pass runs: at t = 61 the message sent at t = 0 with [ttl = 60] is still
    in the store, and [recv] returns its text. *)
Lemma expired_record_reachable :
  (run_py ∅ [EvSend 0 b0 hello_msg]).1 !! "deadbeef" = Some (mkEntry "hello" 60 2) /\
  ~ (61 < 60) /\
  recvs_of "deadbeef" (run_py ∅ [EvSend 0 b0 hello_msg; EvRecv 61 "deadbeef"]).2 =
    [Text "hello"].
Proof. split; [vm_compute; reflexivity | split; [lia | vm_compute; reflexivity]]. Qed.

(** C7, as the code does it.  Starting from a store whose records all have
    views left, every sequence of [send] (with [ttl > 0] and
    [max_views >= 1]), [recv], cleanup and [health] events keeps every
    stored record at [views_left > 0].  [now < expires] is not kept: a
    record with views left stays in the store, and a [recv] of its id at
    any time returns its text, through every event that neither draws nor
    reads its id and through every cleanup pass at a time not after its
    [expires]; only a cleanup pass at [now] leaves nothing with
    [expires < now]. *)
Theorem views_positive_invariant (s : gmap string entry) (evs : list event) :
  views_positive s -> Forall valid_event evs ->
  views_positive (run_py s evs).1 /\
  (forall (s' : gmap string entry) X r evs' n,
     s' !! X = Some r -> 0 < views_left r -> Forall (keeps_record X r) evs' ->
     (run_py s' evs').1 !! X = Some r /\
     (step_py (run_py s' evs').1 (EvRecv n X)).2 = ORecv (Text (data r))) /\
  (forall now (s' : gmap string entry),
     map_Forall (fun _ r => now <= expires r /\ 0 < views_left r) (cleanup_pass now s')).
Proof.
  intros Hs Hevs. split; [|split; [|apply cleanup_pass_not_expired]].
  - revert s Hs. induction Hevs as [|ev evs Hev Hevs IH]; intros s Hs; [done|].
    rewrite run_py_cons. cbn [fst]. apply IH. by apply step_py_views_positive.
  - intros s' X r evs' n Hl Hv Hk.
    assert ((run_py s' evs').1 !! X = Some r) as Hr by by apply run_py_keeps.
    split; [done|]. by apply recv_py_found.
Qed.

Lemma views_positive_invariant_witness :
  (views_positive ∅ /\
   Forall valid_event [EvSend 0 b0 hello_msg; EvRecv 1 "deadbeef"; EvSweep 2]) /\
  views_positive (run_py ∅ [EvSend 0 b0 hello_msg; EvRecv 1 "deadbeef"; EvSweep 2]).1 /\
  (forall (s' : gmap string entry) X r evs' n,
     s' !! X = Some r -> 0 < views_left r -> Forall (keeps_record X r) evs' ->
     (run_py s' evs').1 !! X = Some r /\
     (step_py (run_py s' evs').1 (EvRecv n X)).2 = ORecv (Text (data r))) /\
  (forall now (s' : gmap string entry),
     map_Forall (fun _ r => now <= expires r /\ 0 < views_left r) (cleanup_pass now s')).
Proof.
  split; [split; [apply map_Forall_empty | repeat constructor; simpl; lia]|].
  apply views_positive_invariant;
    [apply map_Forall_empty | repeat constructor; simpl; lia].
Defined.

Lemma health_is_store_size_witness :
  step ∅ (EvHealth 3) = (∅, OHealth (Z.of_nat (size (∅ : gmap string entry)))) /\
  (live_count 3 ∅ <= size (∅ : gmap string entry))%nat /\
  (map_Forall (fun _ r => 0 < views_left r /\ 3 < expires r) (∅ : gmap string entry) ->
   live_count 3 ∅ = size (∅ : gmap string entry)).
Proof. apply health_is_store_size. Defined.

(** ** Further handlers *)

(** [view_message] (main.py, lines 72-79): the countdown handed to the page.
<<
    entry = store.get(msg_id)
    ttl_seconds = 0
    if entry:
        ttl_seconds = max(0, int(entry["expires"] - time.time()))
>>
    Clock readings and expiries are whole seconds in this model, so the
    difference is an integer and [int(...)] is the identity; the fraction a
    real clock adds, which [int] truncates towards zero, is not modelled. *)
Definition view_ttl_main (store : gmap string entry) (msg_id : string) (now : Z) : Z :=
  match store !! msg_id with
  | Some e => Z.max 0 (expires e - now)
  | None => 0
  end.

(** [view_message] (ephemeral_message_api.py, lines 172-180).
<<
    ttl_seconds = 0
    entry = store.get(msg_id)
    if entry:
        ttl_seconds = int(entry["expires"] - time.time())
        if ttl_seconds < 0:
            ttl_seconds = 0
>> *)
Definition view_ttl_api (store : gmap string entry) (msg_id : string) (now : Z) : Z :=
  match store !! msg_id with
  | Some e =>
      let t := expires e - now in
      if Z.ltb t 0 then 0 else t
  | None => 0
  end.

(** [send] (ephemeral_message_api.py, lines 29-42): as in main.py, with the
    link [f"/recv/{msg_id}"]. *)
Definition send_api (store : gmap string entry) (now : Z) (entropy : list Byte.byte)
    (msg : MessageIn) : gmap string entry * send_response :=
  let msg_id := token_hex entropy in
  let t := py_or (ttl msg) TTL_SECONDS in
  let store' := <[msg_id := mkEntry (text msg) (now + t) (py_or (max_views msg) 1)]> store in
  (store', mkSendResponse msg_id t ("/recv/" +:+ msg_id)).

(** ** Further properties *)

Lemma str_app_assoc (a b c : string) : a +:+ (b +:+ c) = (a +:+ b) +:+ c.
Proof.
  induction a as [|x a IH]; [done|].
  change (String x (a +:+ (b +:+ c)) = String x ((a +:+ b) +:+ c)). by rewrite IH.
Qed.

(** [view_message] in both files hands the page the same countdown; it is
    never negative and is 0 for an unknown id. *)
Theorem view_ttl_agree (s : gmap string entry) (id : string) (now : Z) :
  view_ttl_main s id now = view_ttl_api s id now /\
  0 <= view_ttl_main s id now /\
  (s !! id = None -> view_ttl_main s id now = 0).
Proof.
  unfold view_ttl_main, view_ttl_api.
  destruct (s !! id) as [e|].
  - split; [|split; [lia | done]].
    destruct (Z.ltb_spec (expires e - now) 0); lia.
  - split; [done|]. split; [lia|done].
Qed.

(** The two [send] handlers leave the same store and return the same id
    and [expires_in]; the API link followed by ["/view"] (as the API home
    page script builds the share link) is main.py's link. *)
Theorem send_api_agrees (s : gmap string entry) now ent msg :
  (send_api s now ent msg).1 = (send s now ent msg).1 /\
  resp_id (send_api s now ent msg).2 = resp_id (send s now ent msg).2 /\
  expires_in (send_api s now ent msg).2 = expires_in (send s now ent msg).2 /\
  link (send_api s now ent msg).2 +:+ "/view" = link (send s now ent msg).2.
Proof.
  unfold send_api, send. cbn. split; [done|]. split; [done|]. split; [done|].
  rewrite <- !str_app_assoc. done.
Qed.

(** One cleanup pass keeps exactly the records that are not expired: it is
    the map filter on [is_expired now = false]. *)
Lemma cleanup_pass_filter (now : Z) (s : gmap string entry) :
  cleanup_pass now s = filter (fun kv : string * entry => is_expired now kv.2 = false) s.
Proof.
  apply map_eq. intros k. rewrite cleanup_pass_lookup.
  destruct (s !! k) as [v|] eqn:Hl.
  - destruct (is_expired now v) eqn:He.
    + symmetry. apply map_lookup_filter_None. right. intros x Hx.
      rewrite Hl in Hx. injection Hx as <-. simpl. by rewrite He.
    + symmetry. apply map_lookup_filter_Some. by split.
  - symmetry. apply map_lookup_filter_None. by left.
Qed.

Lemma is_expired_mono (n1 n2 : Z) (v : entry) :
  n1 <= n2 -> is_expired n1 v = true -> is_expired n2 v = true.
Proof.
  unfold is_expired. intros Hn H.
  apply orb_true_iff in H as [H|H]; apply orb_true_iff; [left|right; done].
  apply Z.ltb_lt in H. apply Z.ltb_lt. lia.
Qed.

(** Successive passes of [cleanup_loop]: a pass at [n2] after a pass at an
    earlier or equal time [n1] leaves the same store as the pass at [n2]
    alone, so only the latest pass matters. *)
Theorem cleanup_passes_compose (n1 n2 : Z) (s : gmap string entry) :
  n1 <= n2 -> cleanup_pass n2 (cleanup_pass n1 s) = cleanup_pass n2 s.
Proof.
  intros Hn. apply map_eq. intros k. rewrite !cleanup_pass_lookup.
  destruct (s !! k) as [v|]; [|done].
  destruct (is_expired n1 v) eqn:E1.
  - by rewrite (is_expired_mono n1 n2 v Hn E1).
  - done.
Qed.

Lemma cleanup_passes_compose_witness :
  0 <= 10 /\
  cleanup_pass 10 (cleanup_pass 0 (<["a" := mkEntry "x" 5 1]> {["b" := mkEntry "y" 20 1]})) =
  cleanup_pass 10 (<["a" := mkEntry "x" 5 1]> {["b" := mkEntry "y" 20 1]}).
Proof. split; [lia|]. apply cleanup_passes_compose. lia. Defined.

(** After a cleanup pass at [now], [health] reports the number of records
    with [expires >= now] and [views_left > 0]; a pass never makes the
    count grow. *)
Theorem health_after_cleanup (now : Z) (s : gmap string entry) :
  health (cleanup_pass now s) =
    Z.of_nat (size (filter (fun kv : string * entry =>
                              now <= expires kv.2 /\ 0 < views_left kv.2) s)) /\
  health (cleanup_pass now s) <= health s.
Proof.
  unfold health. rewrite cleanup_pass_filter. split.
  - do 2 f_equal. apply map_filter_ext. intros k v _. simpl.
    unfold is_expired.
    destruct (Z.ltb_spec (expires v) now), (Z.leb_spec (views_left v) 0);
      simpl; split; intros; try done; try lia.
  - apply inj_le, map_subseteq_size, map_filter_subseteq.
Qed.

(** [send] adds one record when the drawn id is fresh and none when it is
    taken (the record is then replaced); when [ttl] is too large for a
    float it fails and adds none. *)
Theorem send_size (s : gmap string entry) now ent msg :
  health (send_py s now ent msg).1 =
    if int_to_float_overflows (py_or (ttl msg) TTL_SECONDS) then health s
    else match s !! token_hex ent with Some _ => health s | None => health s + 1 end.
Proof.
  destruct (int_to_float_overflows (py_or (ttl msg) TTL_SECONDS)) eqn:Ho.
  - by rewrite send_py_overflow.
  - rewrite send_py_ok by done. unfold health. simpl. rewrite map_size_insert.
    destruct (s !! token_hex ent); simpl; lia.
Qed.

(** [recv] touches only the requested id: every other record is unchanged,
    the requested record is either removed or kept with the same text and
    expiry and one view less, and the store never grows. *)
Theorem recv_local (s : gmap string entry) (id : string) :
  (forall k, k <> id -> (recv s id).1 !! k = s !! k) /\
  (size (recv s id).1 <= size s)%nat /\
  ((recv s id).1 !! id = None \/
   exists e, s !! id = Some e /\
     (recv s id).1 !! id = Some (mkEntry (data e) (expires e) (views_left e - 1)) /\
     0 < views_left e - 1).
Proof.
  split; [intros k Hk; apply recv_lookup_ne; congruence|].
  unfold recv. destruct (s !! id) as [e|] eqn:Hl; [|auto].
  destruct (Z.leb _ 0) eqn:Hb; simpl in *;
    [apply Z.leb_le in Hb | apply Z.leb_gt in Hb].
  - rewrite delete_insert_eq. split.
    + rewrite map_size_delete, Hl. simpl. lia.
    + left. by rewrite lookup_delete_eq.
  - split.
    + rewrite map_size_insert, Hl. simpl. lia.
    + right. exists e. rewrite lookup_insert_eq. auto.
Qed.

Definition is_send (ev : event) : bool :=
  match ev with EvSend _ _ _ => true | _ => false end.

(** Without [send] requests, the store only shrinks: no id appears and the
    number of records never grows, whatever [recv], cleanup and [health]
    requests are served. *)
Theorem no_send_only_shrinks (s : gmap string entry) (evs : list event) :
  Forall (fun ev => is_send ev = false) evs ->
  (size (run s evs).1 <= size s)%nat /\
  (forall k, s !! k = None -> (run s evs).1 !! k = None).
Proof.
  revert s. induction evs as [|ev evs IH]; intros s Hns; [done|].
  inversion Hns as [|? ? Hev Hns']; subst.
  rewrite run_cons. cbn [fst].
  assert ((size (step s ev).1 <= size s)%nat /\
          forall k, s !! k = None -> (step s ev).1 !! k = None) as [Hsz Hk].
  { destruct ev as [now ent msg|now id|now|now]; simpl in Hev; try discriminate.
    - simpl. pose proof (recv_local s id) as [Hne [Hsz Hid]].
      destruct (recv s id) as [s1 r] eqn:Hr. simpl in *. split; [done|].
      intros k Hk. destruct (String.eqb_spec k id) as [->|Hki].
      + replace s1 with (recv s id).1 by (by rewrite Hr).
        by rewrite (recv_absent s id Hk).
      + rewrite Hne; done.
    - simpl. split.
      + rewrite cleanup_pass_filter. apply map_subseteq_size, map_filter_subseteq.
      + intros k Hk. by apply cleanup_pass_absent.
    - simpl. auto. }
  destruct (IH (step s ev).1 Hns') as [H1 H2]. split; [lia|]. auto.
Qed.

Lemma no_send_only_shrinks_witness :
  Forall (fun ev => is_send ev = false) [EvRecv 0 "a"; EvSweep 3; EvHealth 4] /\
  (size (run {["a" := mkEntry "x" 10 2]} [EvRecv 0 "a"; EvSweep 3; EvHealth 4]).1
     <= size ({["a" := mkEntry "x" 10 2]} : gmap string entry))%nat /\
  (forall k, ({["a" := mkEntry "x" 10 2]} : gmap string entry) !! k = None ->
     (run {["a" := mkEntry "x" 10 2]} [EvRecv 0 "a"; EvSweep 3; EvHealth 4]).1 !! k = None).
Proof.
  split; [repeat constructor|]. apply no_send_only_shrinks. repeat constructor.
Defined.

Lemma step_py_send_ne (s : gmap string entry) now ent msg X :
  token_hex ent <> X -> (step_py s (EvSend now ent msg)).1 !! X = s !! X.
Proof.
  intros Hne. rewrite step_py_send.
  destruct (int_to_float_overflows (py_or (ttl msg) TTL_SECONDS)) eqn:Ho.
  - by rewrite send_py_overflow.
  - rewrite send_py_ok by done. simpl. by rewrite lookup_insert_ne.
Qed.

Lemma step_py_absent (s : gmap string entry) ev X :
  s !! X = None -> not_send_of X ev ->
  (step_py s ev).1 !! X = None /\
  Forall (fun r => r = NotFound404) (recv_part X ev (step_py s ev).2).
Proof.
  intros Hx Hev. destruct ev as [now ent msg|now id|now|now].
  - rewrite step_py_send_ne by done. by rewrite recv_part_send.
  - exact (step_absent s (EvRecv now id) X Hx Hev).
  - exact (step_absent s (EvSweep now) X Hx Hev).
  - exact (step_absent s (EvHealth now) X Hx Hev).
Qed.

Lemma absent_stays_py X (evs : list event) (s : gmap string entry) :
  s !! X = None -> no_send_of X evs ->
  (run_py s evs).1 !! X = None /\
  Forall (fun r => r = NotFound404) (recvs_of X (run_py s evs).2).
Proof.
  revert s. induction evs as [|ev evs IH]; intros s Hx Hns; [done|].
  inversion Hns as [|? ? Hev Hns']; subst.
  rewrite run_py_cons. cbn [fst snd]. rewrite recvs_of_cons.
  destruct (step_py_absent s ev X Hx Hev) as [Hx1 Hp].
  destruct (IH _ Hx1 Hns') as [H1 H2].
  split; [done|]. by apply Forall_app.
Qed.

Lemma recv_last_view (s : gmap string entry) X e n :
  s !! X = Some e -> views_left e <= 1 ->
  step_py s (EvRecv n X) =
    (delete X (<[X := mkEntry (data e) (expires e) (views_left e - 1)]> s),
     ORecv (Text (data e))).
Proof.
  intros Hl Hv. unfold step_py, step, recv. rewrite Hl. cbn [views_left].
  destruct (Z.leb_spec (views_left e - 1) 0); [done|lia].
Qed.

(** A record with at most one view left is returned by at most one [recv]:
    the [recv] outcomes for its id are all 404, or its text once followed
    by 404s only. *)
Lemma last_view_shape X (evs : list event) (s : gmap string entry) e :
  s !! X = Some e -> views_left e <= 1 -> no_send_of X evs ->
  Forall (fun r => r = NotFound404) (recvs_of X (run_py s evs).2) \/
  exists rs, recvs_of X (run_py s evs).2 = Text (data e) :: rs /\
             Forall (fun r => r = NotFound404) rs.
Proof.
  intros Hl Hv. revert s Hl. induction evs as [|ev evs IH]; intros s Hl Hns; [by left|].
  inversion Hns as [|? ? Hev Hns']; subst.
  rewrite run_py_cons. cbn [fst snd]. rewrite recvs_of_cons.
  destruct ev as [now ent msg|now id|now|now].
  - rewrite recv_part_send. apply IH; [|done]. by rewrite step_py_send_ne.
  - destruct (String.eqb_spec id X) as [->|Hne].
    + rewrite (recv_last_view s X e now Hl Hv). cbn [fst snd recv_part]. rewrite String.eqb_refl.
      destruct (absent_stays_py X evs (delete X (<[X := mkEntry (data e) (expires e)
                (views_left e - 1)]> s))) as [_ H]; [by rewrite lookup_delete_eq|done|].
      right. eexists. split; [reflexivity|done].
    + assert ((step_py s (EvRecv now id)).1 !! X = Some e) as Hl1.
      { change (step_py s (EvRecv now id)) with (step s (EvRecv now id)). simpl.
        destruct (recv s id) as [st o] eqn:Hr. simpl.
        rewrite <- Hl. change st with (st, o).1. rewrite <- Hr. by apply recv_lookup_ne. }
      change (step_py s (EvRecv now id)) with (step s (EvRecv now id)) in *.
      simpl (step s (EvRecv now id)) in *.
      destruct (recv s id) as [st o] eqn:Hr. cbn [fst snd recv_part] in *.
      apply String.eqb_neq in Hne. rewrite Hne. simpl. by apply IH.
  - change (step_py s (EvSweep now)) with (cleanup_pass now s, OSweep).
    cbn [fst snd recv_part app].
    destruct (cleanup_pass now s !! X) as [e'|] eqn:Hc.
    + assert (e' = e) as ->.
      { rewrite cleanup_pass_lookup, Hl in Hc. destruct (is_expired now e); congruence. }
      by apply IH.
    + left. by apply absent_stays_py.
  - change (step_py s (EvHealth now)) with (s, OHealth (health s)).
    cbn [fst snd recv_part app]. by apply IH.
Qed.

(** A message sent with [max_views] at most 1 after the [or] default (1, or
    any negative value, which [send] stores as given) is returned by at
    most one [recv] while no other [send] draws its id: the outcomes are
    all 404, or its text once and then 404s.  A [recv] right after the
    [send] returns the text and the next one answers 404; with
    [max_views <= 0] any cleanup pass deletes the record unread. *)
Theorem single_view_when_max_views_le_1 (s : gmap string entry) t0 ent msg evs :
  py_or (max_views msg) 1 <= 1 ->
  int_to_float_overflows (py_or (ttl msg) TTL_SECONDS) = false ->
  no_send_of (token_hex ent) evs ->
  let rs := recvs_of (token_hex ent) (run_py s (EvSend t0 ent msg :: evs)).2 in
  (Forall (fun r => r = NotFound404) rs \/
   exists rs', rs = Text (text msg) :: rs' /\ Forall (fun r => r = NotFound404) rs') /\
  (forall n1 n2, recvs_of (token_hex ent)
     (run_py s [EvSend t0 ent msg; EvRecv n1 (token_hex ent); EvRecv n2 (token_hex ent)]).2 =
     [Text (text msg); NotFound404]) /\
  (py_or (max_views msg) 1 <= 0 -> forall st,
     cleanup_pass st (send_py s t0 ent msg).1 !! token_hex ent = None).
Proof.
  intros Hv Ho Hns rs. subst rs.
  set (e := mkEntry (text msg) (fl (t0 + fl (py_or (ttl msg) TTL_SECONDS)))
                    (py_or (max_views msg) 1)).
  assert ((step_py s (EvSend t0 ent msg)).1 !! token_hex ent = Some e) as Hl.
  { rewrite step_py_send, send_py_ok by done. simpl. by rewrite lookup_insert_eq. }
  split; [|split].
  - rewrite run_py_cons. cbn [fst snd]. rewrite recvs_of_cons, recv_part_send.
    exact (last_view_shape _ evs _ e Hl Hv Hns).
  - intros n1 n2. rewrite !run_py_cons. cbn [fst snd].
    rewrite !recvs_of_cons, recv_part_send.
    rewrite (recv_last_view _ _ e n1 Hl Hv). cbn [fst snd].
    assert (forall (st : gmap string entry) n X, st !! X = None ->
              step_py st (EvRecv n X) = (st, ORecv NotFound404)) as Habs
      by (intros st n X HX; unfold step_py, step; by rewrite recv_absent).
    rewrite (Habs _ n2 _ (lookup_delete_eq _ _)). simpl.
    by rewrite String.eqb_refl.
  - intros Hv0 st. rewrite send_py_ok by done. cbn [fst].
    rewrite cleanup_pass_lookup, lookup_insert_eq. unfold is_expired. cbn [views_left].
    destruct (Z.leb_spec (py_or (max_views msg) 1) 0); [|lia]. by rewrite orb_true_r.
Qed.

Lemma single_view_when_max_views_le_1_witness :
  (py_or (max_views (mkMessageIn "once" None (Some (-4)))) 1 <= 1 /\
   int_to_float_overflows (py_or (ttl (mkMessageIn "once" None (Some (-4)))) TTL_SECONDS) = false /\
   no_send_of (token_hex b0) [EvSweep 1; EvRecv 2 (token_hex b0)]) /\
  let rs := recvs_of (token_hex b0)
    (run_py ∅ (EvSend 0 b0 (mkMessageIn "once" None (Some (-4))) ::
               [EvSweep 1; EvRecv 2 (token_hex b0)])).2 in
  (Forall (fun r => r = NotFound404) rs \/
   exists rs', rs = Text (text (mkMessageIn "once" None (Some (-4)))) :: rs' /\
               Forall (fun r => r = NotFound404) rs') /\
  (forall n1 n2, recvs_of (token_hex b0)
     (run_py ∅ [EvSend 0 b0 (mkMessageIn "once" None (Some (-4)));
                EvRecv n1 (token_hex b0); EvRecv n2 (token_hex b0)]).2 =
     [Text (text (mkMessageIn "once" None (Some (-4)))); NotFound404]) /\
  (py_or (max_views (mkMessageIn "once" None (Some (-4)))) 1 <= 0 -> forall st,
     cleanup_pass st (send_py ∅ 0 b0 (mkMessageIn "once" None (Some (-4)))).1 !! token_hex b0
       = None).
Proof.
  split; [split; [simpl; lia | split; [vm_compute; reflexivity | repeat constructor; done]]|].
  apply single_view_when_max_views_le_1;
    [simpl; lia | vm_compute; reflexivity | repeat constructor; done].
Defined.

(** Reading a [token_hex] id back into bytes ([bytes.fromhex] on lowercase
    digits). *)
Definition hex_val (c : ascii) : option nat :=
  let n := nat_of_ascii c in
  if Nat.leb 48 n && Nat.leb n 57 then Some (n - 48)%nat
  else if Nat.leb 97 n && Nat.leb n 102 then Some (n - 87)%nat
  else None.

Definition dec_byte (c1 c2 : ascii) : option Byte.byte :=
  match hex_val c1, hex_val c2 with
  | Some h, Some l => Byte.of_nat (16 * h + l)%nat
  | _, _ => None
  end.

Fixpoint unhex (s : string) : option (list Byte.byte) :=
  match s with
  | EmptyString => Some []
  | String c1 (String c2 s') =>
      match dec_byte c1 c2, unhex s' with
      | Some b, Some bs => Some (b :: bs)
      | _, _ => None
      end
  | String _ EmptyString => None
  end.

Lemma dec_byte_hex (b : Byte.byte) :
  dec_byte (hex_digit (Nat.div (Byte.to_nat b) 16)) (hex_digit (Nat.modulo (Byte.to_nat b) 16)) =
    Some b.
Proof. destruct b; vm_compute; reflexivity. Qed.

Lemma unhex_token_hex (bs : list Byte.byte) : unhex (token_hex bs) = Some bs.
Proof.
  induction bs as [|b bs IH]; [done|].
  change (unhex (String (hex_digit (Nat.div (Byte.to_nat b) 16))
                  (String (hex_digit (Nat.modulo (Byte.to_nat b) 16)) (token_hex bs)))
          = Some (b :: bs)).
  cbn [unhex]. by rewrite dec_byte_hex, IH.
Qed.

(** [token_hex] loses nothing: two different entropy strings never give
    the same id, so an id collision in [send] needs the entropy source to
    repeat itself. *)
Theorem token_hex_injective (bs1 bs2 : list Byte.byte) :
  token_hex bs1 = token_hex bs2 -> bs1 = bs2.
Proof.
  intros H. apply (f_equal unhex) in H. rewrite !unhex_token_hex in H.
  by injection H.
Qed.

Lemma token_hex_injective_witness :
  token_hex b0 = token_hex [Byte.xde; Byte.xad; Byte.xbe; Byte.xef] /\
  b0 = [Byte.xde; Byte.xad; Byte.xbe; Byte.xef].
Proof. split; [reflexivity|]. apply token_hex_injective. reflexivity. Defined.

Lemma view_ttl_agree_witness :
  view_ttl_main ∅ "deadbeef" 5 = view_ttl_api ∅ "deadbeef" 5 /\
  0 <= view_ttl_main ∅ "deadbeef" 5 /\
  ((∅ : gmap string entry) !! "deadbeef" = None -> view_ttl_main ∅ "deadbeef" 5 = 0).
Proof. apply view_ttl_agree. Defined.
